(** * Transport kernels of the P2D PEMFC model

    Shallow embedding of [Shared_Funcs/pemfc_transport_funcs.py]:
    [fickian_adf] (planar advection-diffusion flux between two gas-phase
    nodes) and [radial_fdiff] (finite-difference radial diffusion between two
    shells of an agglomerate).

    Numbers are real numbers.  A species vector is a 1-D numpy array, here a
    list, with numpy's elementwise arithmetic and its broadcasting rule
    written out.  A Python exception is the outcome [Raise e] of a call.
    The one division of the module, by the averaged viscosity, can leave the
    reals: numpy answers a division by zero with an inf or nan entry, which
    is the entry [None] here, and stays [None] under the addition and the
    scaling that follow. *)

From Stdlib Require Import Reals Lra List ZArith Lia Bool.
Import ListNotations.

Open Scope R_scope.

(** ** Outcomes of a call *)

Inductive exn : Type :=
| IndexError          (* sequence index out of range *)
| ValueError          (* operands could not be broadcast together *)
| UnboundLocalError.  (* a local read before any assignment *)

Inductive res (A : Type) : Type :=
| Ok (a : A)
| Raise (e : exn).

Arguments Ok {A} a.
Arguments Raise {A} e.

Definition res_bind {A B : Type} (r : res A) (k : A -> res B) : res B :=
  match r with
  | Ok a => k a
  | Raise e => Raise e
  end.

Definition res_map {A B : Type} (f : A -> B) (r : res A) : res B :=
  res_bind r (fun a => Ok (f a)).

Declare Scope res_scope.
Delimit Scope res_scope with res.
Notation "x <- r ;; k" := (res_bind r (fun x => k))
  (at level 61, r at next level, right associativity) : res_scope.
Open Scope res_scope.

Definition is_ok {A : Type} (r : res A) : bool :=
  match r with Ok _ => true | Raise _ => false end.

(** ** Species vectors with numpy arithmetic *)

Definition vec : Type := list R.

(** An entry that may be inf or nan, and a vector of such entries. *)
Definition xreal : Type := option R.
Definition xvec : Type := list xreal.

(** [c * v] with a scalar on the left. *)
Definition scal_l (c : R) (v : vec) : vec := map (fun x => c * x) v.

(** [v * c] with a scalar on the right. *)
Definition scal_r (v : vec) (c : R) : vec := map (fun x => x * c) v.

(** [-v]. *)
Definition vneg (v : vec) : vec := map Ropp v.

Fixpoint zipw {A B C : Type} (f : A -> B -> C) (xs : list A) (ys : list B)
  : list C :=
  match xs, ys with
  | x :: xs', y :: ys' => f x y :: zipw f xs' ys'
  | _, _ => []
  end.

(** A binary operator between two 1-D arrays: an array of length one is
    stretched to the other's length, otherwise the lengths must agree. *)
Definition broadcast {A B C : Type} (f : A -> B -> C)
    (xs : list A) (ys : list B) : res (list C) :=
  match xs, ys with
  | [x], _ => Ok (map (fun y => f x y) ys)
  | _, [y] => Ok (map (fun x => f x y) xs)
  | _, _ =>
      if Nat.eqb (length xs) (length ys) then Ok (zipw f xs ys)
      else Raise ValueError
  end.

Definition vadd : vec -> vec -> res vec := broadcast Rplus.
Definition vsub : vec -> vec -> res vec := broadcast Rminus.
Definition vmul : vec -> vec -> res vec := broadcast Rmult.

(** [x / c] for floats: inf or nan when [c] is zero. *)
Definition xdiv (x c : R) : xreal :=
  if Req_dec_T c 0 then None else Some (x / c).

(** [v / c] with a scalar divisor. *)
Definition vdiv_scalar (v : vec) (c : R) : xvec := map (fun x => xdiv x c) v.

(** [a + b] and [c * a] where [a] may be inf or nan and [b], [c] are not. *)
Definition xadd (a : xreal) (b : R) : xreal := option_map (fun x => x + b) a.
Definition xscal (c : R) (a : xreal) : xreal := option_map (fun x => c * x) a.
Definition xneg (a : xreal) : xreal := option_map Ropp a.

(** [a[i]] on a Python sequence: a negative index counts from the end. *)
Definition getitem (a : list R) (i : Z) : res R :=
  let j := if (i <? 0)%Z then (i + Z.of_nat (length a))%Z else i in
  if (j <? 0)%Z then Raise IndexError
  else match nth_error a (Z.to_nat j) with
       | Some x => Ok x
       | None => Raise IndexError
       end.

(** ** The radial kernel *)

(** The keys of the dictionary [p] that [radial_fdiff] reads:
    ['D_eff_naf'], ['p_eff_SAnaf'], ['eps/tau2_n2'], ['r_jph'], ['1/dr'],
    ['1/r_j'], ['1/t_shl']. *)
Record radial_params : Type := {
  D_eff_naf : R;
  p_eff_SAnaf : R;
  eps_tau2_n2 : R;
  r_jph : list R;
  inv_dr : list R;
  inv_r_j : list R;
  inv_t_shl : list R
}.

(** The local [drho_dt] is bound by one of the two branches or not at all;
    [return drho_dt] reads it. *)
Definition radial_fdiff {F : Type} (rho_k1 rho_k2 : vec) (p : radial_params)
    (node ver : Z) (flag : F) : res vec :=
  drho_dt <-
    (if (ver =? 1)%Z then
       let c := D_eff_naf p * p_eff_SAnaf p * eps_tau2_n2 p in
       r <- getitem (r_jph p) node ;;
       d <- vsub rho_k1 rho_k2 ;;
       dr <- getitem (inv_dr p) node ;;
       Ok (Some (scal_l c (scal_r (scal_l (r ^ 2) d) dr)))
     else if (ver =? 2)%Z then
       let c := D_eff_naf p * p_eff_SAnaf p * eps_tau2_n2 p in
       r <- getitem (r_jph p) node ;;
       d <- vsub rho_k1 rho_k2 ;;
       dr <- getitem (inv_dr p) node ;;
       rj <- getitem (inv_r_j p) node ;;
       let v := scal_r (scal_l c (scal_r (scal_l (r ^ 2) d) dr)) (rj ^ 2) in
       t <- getitem (inv_t_shl p) node ;;
       Ok (Some (scal_r v t))
     else Ok None) ;;
  match drho_dt with
  | Some v => Ok v
  | None => Raise UnboundLocalError
  end.

(** ** The property provider *)

(** A thermodynamic state as the caller passes it: the tuple
    (temperature, density, mass fractions). *)
Record TDY : Type := {
  tdy_T : R;
  tdy_D : R;
  tdy_Y : vec
}.

(** What [fickian_adf] asks of the object [gas]: the assignment
    [gas.TDY = s], which changes the object, and five attributes read from
    it. *)
Class Provider (G : Type) : Type := {
  set_TDY : TDY -> G -> G;
  mix_diff_coeffs_mass : G -> vec;
  density_mass : G -> R;
  viscosity : G -> R;
  gas_P : G -> R;
  gas_Y : G -> vec
}.

Inductive attr : Type :=
| A_mix_diff_coeffs_mass
| A_density_mass
| A_viscosity
| A_P
| A_Y.

(** One access of the kernel to the provider. *)
Inductive access : Type :=
| SetTDY (s : TDY)
| Get (a : attr).

Definition is_set (a : access) : bool :=
  match a with SetTDY _ => true | Get _ => false end.

(** The shared provider object together with the accesses made so far. *)
Record world (G : Type) : Type := {
  gas : G;
  log : list access
}.

Arguments gas {G} w.
Arguments log {G} w.

(** Computations of the planar kernel: they act on the shared provider and
    end in an outcome. *)
Definition M (G A : Type) : Type := world G -> res A * world G.

Definition ret {G A : Type} (a : A) : M G A := fun w => (Ok a, w).

Definition bind {G A B : Type} (m : M G A) (k : A -> M G B) : M G B :=
  fun w =>
    match m w with
    | (Ok a, w') => k a w'
    | (Raise e, w') => (Raise e, w')
    end.

Definition lift {G A : Type} (r : res A) : M G A := fun w => (r, w).

Declare Scope kernel_scope.
Delimit Scope kernel_scope with M.
Notation "x <- m ;; k" := (bind m (fun x => k))
  (at level 61, m at next level, right associativity) : kernel_scope.
Notation "m ;; k" := (bind m (fun _ => k))
  (at level 61, right associativity) : kernel_scope.

(** ** The planar kernel *)

(** The keys of the dictionary [p] that [fickian_adf] reads: ['wt1'],
    ['wt2'], ['K_g'], ['1/dy'], ['eps/tau2']. *)
Record planar_params : Type := {
  wt1 : R;
  wt2 : R;
  K_g : R;
  inv_dy : R;
  eps_tau2 : R
}.

(** The attributes read at one node after [gas.TDY] was set. *)
Record node_props : Type := {
  np_D_k : vec;
  np_rho : R;
  np_mu : R;
  np_P : R;
  np_Y : vec
}.

(** Lines 32, 41 and 46 to 53: the partial densities, the boundary averages
    and the two driving terms [(J_conv, J_diff)]. *)
Definition driving_terms (q1 q2 : node_props) (p : planar_params)
  : res (xvec * vec) :=
  let rho_k1 := scal_l (np_rho q1) (np_Y q1) in
  let rho_k2 := scal_l (np_rho q2) (np_Y q2) in
  D_k <- vadd (scal_l (wt1 p) (np_D_k q1)) (scal_l (wt2 p) (np_D_k q2)) ;;
  let rho := wt1 p * np_rho q1 + wt2 p * np_rho q2 in
  let mu := wt1 p * np_mu q1 + wt2 p * np_mu q2 in
  rho_k <- vadd (scal_l (wt1 p) rho_k1) (scal_l (wt2 p) rho_k2) ;;
  let J_conv :=
    vdiv_scalar (scal_r (scal_r (scal_r (vneg rho_k) (K_g p))
                                (np_P q2 - np_P q1)) (inv_dy p)) mu in
  dY <- vsub (np_Y q2) (np_Y q1) ;;
  J <- vmul (scal_r (scal_l (- eps_tau2 p) D_k) rho) dY ;;
  Ok (J_conv, scal_r J (inv_dy p)).

(** [J_conv + J_diff]. *)
Definition sum_terms (J : xvec * vec) : res xvec :=
  broadcast xadd (fst J) (snd J).

(** Line 56: [tog*(J_conv + J_diff)]. *)
Definition net_flux (tog : R) (J : xvec * vec) : res xvec :=
  s <- sum_terms J ;;
  Ok (map (xscal tog) s).

Section Planar.

Context {G : Type} `{Provider G}.

Definition set_state (s : TDY) : M G unit :=
  fun w => (Ok tt, {| gas := set_TDY s (gas w); log := log w ++ [SetTDY s] |}).

Definition read {A : Type} (a : attr) (f : G -> A) : M G A :=
  fun w => (Ok (f (gas w)), {| gas := gas w; log := log w ++ [Get a] |}).

(** Lines 27 to 31 and 36 to 40. *)
Definition read_node : M G node_props :=
  (D_k <- read A_mix_diff_coeffs_mass mix_diff_coeffs_mass ;;
   rho <- read A_density_mass density_mass ;;
   mu <- read A_viscosity viscosity ;;
   P <- read A_P gas_P ;;
   Y <- read A_Y gas_Y ;;
   ret {| np_D_k := D_k; np_rho := rho; np_mu := mu; np_P := P; np_Y := Y |})%M.

Definition fickian_adf (TDY1 TDY2 : TDY) (p : planar_params) (tog : R)
  : M G xvec :=
  (set_state TDY1 ;;
   q1 <- read_node ;;
   set_state TDY2 ;;
   q2 <- read_node ;;
   J <- lift (driving_terms q1 q2 p) ;;
   lift (net_flux tog J))%M.

(** The attributes of the provider as it stands, without the log. *)
Definition props_of (g : G) : node_props :=
  {| np_D_k := mix_diff_coeffs_mass g;
     np_rho := density_mass g;
     np_mu := viscosity g;
     np_P := gas_P g;
     np_Y := gas_Y g |}.

End Planar.

(** ** What the statements below speak about *)

(** The provider hands out one entry per species. *)
Definition species_count (n : nat) (q : node_props) : Prop :=
  length (np_D_k q) = n /\ length (np_Y q) = n.

(** A vector all of whose entries are real numbers. *)
Definition finite (v : vec) : xvec := map Some v.

(** The attributes depend on the state that was set last and on nothing that
    happened to the provider before. *)
Definition state_determined (G : Type) `{Provider G} : Prop :=
  forall (s : TDY) (g g' : G),
    props_of (set_TDY s g) = props_of (set_TDY s g').

Definition swap_weights (p : planar_params) : planar_params :=
  {| wt1 := wt2 p; wt2 := wt1 p; K_g := K_g p; inv_dy := inv_dy p;
     eps_tau2 := eps_tau2 p |}.

(** The two driving terms and the flux of species [k] as the specification
    writes them, entry by entry: steps 3 to 6 of its algorithm for the
    planar kernel. *)
Definition spec_J_conv (q1 q2 : node_props) (p : planar_params) (k : nat) : R :=
  let rho_k1 := np_rho q1 * nth k (np_Y q1) 0 in
  let rho_k2 := np_rho q2 * nth k (np_Y q2) 0 in
  let mu := wt1 p * np_mu q1 + wt2 p * np_mu q2 in
  let rho_k := wt1 p * rho_k1 + wt2 p * rho_k2 in
  - rho_k * K_g p * (np_P q2 - np_P q1) * inv_dy p / mu.

Definition spec_J_diff (q1 q2 : node_props) (p : planar_params) (k : nat) : R :=
  let D_k := wt1 p * nth k (np_D_k q1) 0 + wt2 p * nth k (np_D_k q2) 0 in
  let rho := wt1 p * np_rho q1 + wt2 p * np_rho q2 in
  - eps_tau2 p * D_k * rho * (nth k (np_Y q2) 0 - nth k (np_Y q1) 0) * inv_dy p.

Definition spec_flux (q1 q2 : node_props) (p : planar_params) (tog : R)
    (k : nat) : R :=
  tog * (spec_J_conv q1 q2 p k + spec_J_diff q1 q2 p k).

(** The accesses of one call, in order. *)
Definition node_reads : list access :=
  [Get A_mix_diff_coeffs_mass; Get A_density_mass; Get A_viscosity;
   Get A_P; Get A_Y].

Definition call_log (TDY1 TDY2 : TDY) : list access :=
  SetTDY TDY1 :: node_reads ++ SetTDY TDY2 :: node_reads.

(** The index range the specification has in mind: [0 <= i < len a]. *)
Definition within_bounds (a : list R) (i : Z) : bool :=
  (0 <=? i)%Z && (i <? Z.of_nat (length a))%Z.

(** The index range Python accepts: [-len a <= i < len a]. *)
Definition python_index (a : list R) (i : Z) : bool :=
  (- Z.of_nat (length a) <=? i)%Z && (i <? Z.of_nat (length a))%Z.

(** The arrays of [p] that a variant subscripts with [node]. *)
Definition indexed_arrays (p : radial_params) (ver : Z) : list (list R) :=
  if (ver =? 1)%Z then [r_jph p; inv_dr p]
  else if (ver =? 2)%Z then [r_jph p; inv_dr p; inv_r_j p; inv_t_shl p]
  else [].

(** ** Providers and inputs to run the kernels on *)

(** A provider that keeps the state it was given: density and mass
    fractions are those of the state, the pressure follows the ideal-gas
    law with a fixed specific gas constant, viscosity and diffusion
    coefficients are constants. *)
#[export] Instance table_gas : Provider TDY := {
  set_TDY := fun s _ => s;
  mix_diff_coeffs_mass := fun g => map (fun _ => 2e-5) (tdy_Y g);
  density_mass := tdy_D;
  viscosity := fun _ => 2e-5;
  gas_P := fun g => tdy_D g * 287 * tdy_T g;
  gas_Y := tdy_Y
}.

(** The provider of the specification's scenario: it counts the states set
    so far and reports the pressure 101325 at the first node and 101300 at
    the second; the other attributes are the scenario's constants. *)
#[export] Instance scenario_gas : Provider (nat * TDY) := {
  set_TDY := fun s g => (S (fst g), s);
  mix_diff_coeffs_mass := fun _ => [2e-5];
  density_mass := fun _ => 1;
  viscosity := fun _ => 2e-5;
  gas_P := fun g => if Nat.eqb (fst g) 1 then 101325 else 101300;
  gas_Y := fun g => tdy_Y (snd g)
}.

Definition scenario_state : TDY := {| tdy_T := 350; tdy_D := 1; tdy_Y := [1] |}.

Definition scenario_params : planar_params :=
  {| wt1 := 0.5; wt2 := 0.5; K_g := 1e-12; inv_dy := 100; eps_tau2 := 0.5 |}.

Definition scenario_world : world (nat * TDY) :=
  {| gas := (O, scenario_state); log := [] |}.

Definition air_state : TDY :=
  {| tdy_T := 300; tdy_D := 1; tdy_Y := [1 / 4; 3 / 4] |}.

Definition humid_state : TDY :=
  {| tdy_T := 350; tdy_D := 2; tdy_Y := [1 / 2; 1 / 2] |}.

Definition boundary_params : planar_params :=
  {| wt1 := 1 / 4; wt2 := 3 / 4; K_g := 1; inv_dy := 10; eps_tau2 := 1 / 2 |}.

Definition table_world : world TDY := {| gas := air_state; log := [] |}.

Definition shell_params : radial_params :=
  {| D_eff_naf := 2; p_eff_SAnaf := 1; eps_tau2_n2 := 1 / 2;
     r_jph := [1; 3]; inv_dr := [10; 5];
     inv_r_j := [1; 1 / 2]; inv_t_shl := [4; 2] |}.

(** The sum of the entries of a vector: the total over the species. *)
Definition vsum (v : vec) : R := fold_right Rplus 0 v.

(** Two 1-D arrays that numpy refuses to combine: different lengths, neither
    of them one. *)
Definition shapes_clash {A B : Type} (xs : list A) (ys : list B) : Prop :=
  length xs <> length ys /\ length xs <> 1%nat /\ length ys <> 1%nat.

(** A provider like [table_gas] but for a fluid without viscosity. *)
Record inviscid : Type := { inviscid_state : TDY }.

#[export] Instance inviscid_gas : Provider inviscid := {
  set_TDY := fun s _ => {| inviscid_state := s |};
  mix_diff_coeffs_mass :=
    fun g => map (fun _ => 2e-5) (tdy_Y (inviscid_state g));
  density_mass := fun g => tdy_D (inviscid_state g);
  viscosity := fun _ => 0;
  gas_P := fun g => tdy_D (inviscid_state g) * 287 * tdy_T (inviscid_state g);
  gas_Y := fun g => tdy_Y (inviscid_state g)
}.

Definition inviscid_world : world inviscid :=
  {| gas := {| inviscid_state := air_state |}; log := [] |}.

(** A provider that reports one diffusion coefficient more each time a
    state is set: two at the first node of a fresh object, three at the
    second. *)
Record ragged : Type := { ragged_sets : nat; ragged_state : TDY }.

#[export] Instance ragged_gas : Provider ragged := {
  set_TDY := fun s g => {| ragged_sets := S (ragged_sets g); ragged_state := s |};
  mix_diff_coeffs_mass := fun g => repeat 2e-5 (S (ragged_sets g));
  density_mass := fun g => tdy_D (ragged_state g);
  viscosity := fun _ => 2e-5;
  gas_P := fun g => tdy_D (ragged_state g) * 287 * tdy_T (ragged_state g);
  gas_Y := fun g => tdy_Y (ragged_state g)
}.

Definition ragged_world : world ragged :=
  {| gas := {| ragged_sets := 0; ragged_state := air_state |}; log := [] |}.

Definition cool_state : TDY :=
  {| tdy_T := 300; tdy_D := 1; tdy_Y := [1 / 2; 1 / 2] |}.

(** Node attributes and parameters without a negative entry. *)
Definition physical_props (q : node_props) : Prop :=
  0 <= np_rho q /\ Forall (Rle 0) (np_D_k q) /\ Forall (Rle 0) (np_Y q).

Definition physical_params (p : planar_params) : Prop :=
  0 <= wt1 p /\ 0 <= wt2 p /\ 0 <= K_g p /\ 0 <= inv_dy p /\
  0 <= eps_tau2 p.

(** ** Vector arithmetic *)

Lemma zipw_length {A B C : Type} (f : A -> B -> C) (xs : list A)
    (ys : list B) :
  length xs = length ys -> length (zipw f xs ys) = length xs.
Proof.
  revert ys; induction xs as [|x xs IH]; intros [|y ys] E; simpl in *;
    try discriminate; auto.
Qed.

Lemma zipw_nth {A B C : Type} (f : A -> B -> C) (xs : list A) (ys : list B)
    (k : nat) (a : A) (b : B) (c : C) :
  length xs = length ys -> (k < length xs)%nat ->
  nth k (zipw f xs ys) c = f (nth k xs a) (nth k ys b).
Proof.
  revert ys k; induction xs as [|x xs IH]; intros [|y ys] [|k] E L;
    simpl in *; try discriminate; try lia; auto.
  apply IH; lia.
Qed.

Lemma map_nth_lt {A B : Type} (g : A -> B) (xs : list A) (k : nat)
    (a : A) (b : B) :
  (k < length xs)%nat -> nth k (map g xs) b = g (nth k xs a).
Proof.
  revert k; induction xs as [|x xs IH]; intros [|k] L; simpl in *;
    try lia; auto.
  apply IH; lia.
Qed.

(** Arrays of one length combine entry by entry. *)
Lemma broadcast_same_length {A B C : Type} (f : A -> B -> C)
    (xs : list A) (ys : list B) :
  length xs = length ys -> broadcast f xs ys = Ok (zipw f xs ys).
Proof.
  intros E. unfold broadcast.
  destruct xs as [|x [|x' xs]]; destruct ys as [|y [|y' ys]];
    simpl in *; try discriminate; auto.
  injection E as E. rewrite E, Nat.eqb_refl. reflexivity.
Qed.

(** Exchanging the operands of a broadcast exchanges those of the operator. *)
Lemma broadcast_swap {A B C : Type} (f : A -> B -> C) (g : B -> A -> C)
    (xs : list A) (ys : list B) :
  (forall x y, f x y = g y x) -> broadcast f xs ys = broadcast g ys xs.
Proof.
  intros Hfg. unfold broadcast.
  assert (Z : forall u v, zipw f u v = zipw g v u).
  { induction u as [|u1 u IH]; intros [|v1 v]; simpl; auto.
    rewrite Hfg, IH. reflexivity. }
  assert (Ml : forall c l, map (fun y => f c y) l = map (fun y => g y c) l).
  { intros; apply map_ext; intros; apply Hfg. }
  assert (Mr : forall c l, map (fun x => f x c) l = map (fun x => g c x) l).
  { intros; apply map_ext; intros; apply Hfg. }
  destruct xs as [|x [|x' xs]]; destruct ys as [|y [|y' ys]]; simpl; auto;
    rewrite ?Hfg, ?Ml, ?Mr; auto.
  rewrite (Nat.eqb_sym (length ys) (length xs)).
  destruct (Nat.eqb (length xs) (length ys)); auto.
  rewrite Z. reflexivity.
Qed.

(** A broadcast of mapped operands is the mapped broadcast, when the
    operators agree entry by entry. *)
Lemma broadcast_map {A B C A' B' C' : Type}
    (f : A' -> B' -> C') (g : A -> B -> C)
    (a : A -> A') (b : B -> B') (c : C -> C')
    (xs : list A) (ys : list B) :
  (forall x y, f (a x) (b y) = c (g x y)) ->
  broadcast f (map a xs) (map b ys) = res_map (map c) (broadcast g xs ys).
Proof.
  intros Hc. unfold broadcast, res_map.
  assert (Z : forall u v, zipw f (map a u) (map b v) = map c (zipw g u v)).
  { induction u as [|u1 u IH]; intros [|v1 v]; simpl; auto.
    rewrite Hc, IH. reflexivity. }
  assert (Ml : forall u l,
             map (fun y => f (a u) y) (map b l)
             = map c (map (fun y => g u y) l)).
  { intros; rewrite !map_map; apply map_ext; intros; apply Hc. }
  assert (Mr : forall v l,
             map (fun x => f x (b v)) (map a l)
             = map c (map (fun x => g x v) l)).
  { intros; rewrite !map_map; apply map_ext; intros; apply Hc. }
  destruct xs as [|x [|x' xs]]; destruct ys as [|y [|y' ys]]; simpl; auto;
    rewrite ?Hc, ?length_map; auto.
  - specialize (Ml x ys). simpl in Ml. rewrite Ml. reflexivity.
  - specialize (Mr y xs). simpl in Mr. rewrite Mr. reflexivity.
  - destruct (Nat.eqb (length xs) (length ys)); simpl; auto.
    rewrite Z. reflexivity.
Qed.

Lemma broadcast_map_l {A B C A' C' : Type}
    (f : A' -> B -> C') (g : A -> B -> C) (a : A -> A') (c : C -> C')
    (xs : list A) (ys : list B) :
  (forall x y, f (a x) y = c (g x y)) ->
  broadcast f (map a xs) ys = res_map (map c) (broadcast g xs ys).
Proof.
  intros Hc. rewrite <- (map_id ys) at 1.
  apply (broadcast_map f g a (fun y => y) c). exact Hc.
Qed.

Lemma broadcast_map_r {A B C B' C' : Type}
    (f : A -> B' -> C') (g : A -> B -> C) (b : B -> B') (c : C -> C')
    (xs : list A) (ys : list B) :
  (forall x y, f x (b y) = c (g x y)) ->
  broadcast f xs (map b ys) = res_map (map c) (broadcast g xs ys).
Proof.
  intros Hc. rewrite <- (map_id xs) at 1.
  apply (broadcast_map f g (fun x => x) b c). exact Hc.
Qed.

Lemma vsub_swap (xs ys : vec) : vsub ys xs = res_map vneg (vsub xs ys).
Proof.
  unfold vsub. rewrite (broadcast_swap Rminus (fun x y => y - x)) by auto.
  rewrite <- (map_id xs) at 1. rewrite <- (map_id ys) at 1.
  apply (broadcast_map (fun x y => y - x) Rminus (fun x => x) (fun y => y)).
  intros; ring.
Qed.

Lemma vadd_swap (xs ys : vec) : vadd ys xs = vadd xs ys.
Proof. apply broadcast_swap. intros; ring. Qed.

Lemma vmul_vneg_r (xs ys : vec) :
  vmul xs (vneg ys) = res_map vneg (vmul xs ys).
Proof. apply broadcast_map_r. intros; ring. Qed.

Lemma scal_l_vneg (c : R) (v : vec) : scal_l c (vneg v) = vneg (scal_l c v).
Proof.
  unfold scal_l, vneg. rewrite !map_map. apply map_ext. intros; ring.
Qed.

Lemma scal_r_vneg (v : vec) (c : R) : scal_r (vneg v) c = vneg (scal_r v c).
Proof.
  unfold scal_r, vneg. rewrite !map_map. apply map_ext. intros; ring.
Qed.

Lemma scal_r_scal_r (v : vec) (c d : R) :
  scal_r (scal_r v c) d = scal_r v (c * d).
Proof.
  unfold scal_r. rewrite map_map. apply map_ext. intros; ring.
Qed.

Lemma scal_r_opp (v : vec) (c : R) : scal_r v (- c) = vneg (scal_r v c).
Proof.
  unfold scal_r, vneg. rewrite map_map. apply map_ext. intros; ring.
Qed.


(** ** Entries that may have left the reals *)

Lemma vdiv_scalar_finite (v : vec) (c : R) :
  c <> 0 -> vdiv_scalar v c = finite (map (fun x => x / c) v).
Proof.
  intros N. unfold vdiv_scalar, finite, xdiv. rewrite map_map.
  destruct (Req_dec_T c 0) as [E|_]; [contradiction|]. reflexivity.
Qed.

Lemma vdiv_scalar_vneg (v : vec) (c : R) :
  vdiv_scalar (vneg v) c = map xneg (vdiv_scalar v c).
Proof.
  unfold vdiv_scalar, vneg, xdiv. rewrite !map_map. apply map_ext.
  intros x. destruct (Req_dec_T c 0) as [E|N]; simpl; [reflexivity|].
  f_equal. field. exact N.
Qed.

Lemma sum_terms_finite (J_conv J_diff : vec) :
  sum_terms (finite J_conv, J_diff) = res_map finite (vadd J_conv J_diff).
Proof.
  unfold sum_terms, finite, vadd. simpl.
  apply broadcast_map_l. reflexivity.
Qed.

Lemma sum_terms_neg (J : xvec * vec) :
  sum_terms (map xneg (fst J), vneg (snd J))
  = res_map (map xneg) (sum_terms J).
Proof.
  unfold sum_terms, vneg. simpl. apply broadcast_map.
  intros [x|] y; simpl; [|reflexivity]. f_equal. ring.
Qed.

Lemma xscal_finite (c : R) (v : vec) :
  map (xscal c) (finite v) = finite (scal_l c v).
Proof. unfold finite, scal_l. rewrite !map_map. reflexivity. Qed.

Lemma xscal_neg (c : R) (s : xvec) :
  map (xscal c) (map xneg s) = map xneg (map (xscal c) s).
Proof.
  rewrite !map_map. apply map_ext. intros [x|]; simpl; [|reflexivity].
  f_equal. ring.
Qed.

Lemma xscal_one (s : xvec) : map (xscal 1) s = s.
Proof.
  rewrite <- (map_id s) at 2. apply map_ext.
  intros [x|]; simpl; [|reflexivity]. f_equal. ring.
Qed.

(** ** Subscripts *)

Lemma getitem_rejects (a : list R) (i : Z) :
  python_index a i = false -> getitem a i = Raise IndexError.
Proof.
  unfold python_index, getitem. intros Hr.
  apply andb_false_iff in Hr.
  destruct (Z.ltb_spec i 0) as [Hneg|Hpos].
  - destruct (Z.ltb_spec (i + Z.of_nat (length a)) 0) as [_|Hge]; auto.
    destruct Hr as [Hr|Hr]; [apply Z.leb_gt in Hr | apply Z.ltb_ge in Hr]; lia.
  - destruct (Z.ltb_spec i 0) as [|_]; [lia|].
    destruct Hr as [Hr|Hr]; [apply Z.leb_gt in Hr; lia | apply Z.ltb_ge in Hr].
    destruct (nth_error a (Z.to_nat i)) eqn:E; auto.
    assert (Z.to_nat i < length a)%nat
      by (apply nth_error_Some; rewrite E; discriminate).
    lia.
Qed.

Lemma getitem_accepts (a : list R) (i : Z) :
  python_index a i = true -> exists x, getitem a i = Ok x.
Proof.
  unfold python_index, getitem. intros Hr.
  apply andb_true_iff in Hr. destruct Hr as [Hlo Hhi].
  apply Z.leb_le in Hlo. apply Z.ltb_lt in Hhi.
  set (j := if (i <? 0)%Z then (i + Z.of_nat (length a))%Z else i).
  assert (Hj : (0 <= j < Z.of_nat (length a))%Z).
  { unfold j. destruct (Z.ltb_spec i 0); lia. }
  destruct (Z.ltb_spec j 0) as [|_]; [lia|].
  destruct (nth_error a (Z.to_nat j)) eqn:E; eauto.
  apply nth_error_None in E. lia.
Qed.

Lemma getitem_spec (a : list R) (i : Z) :
  (getitem a i = Raise IndexError /\ python_index a i = false) \/
  (exists x, getitem a i = Ok x /\ python_index a i = true).
Proof.
  destruct (python_index a i) eqn:E.
  - right. destruct (getitem_accepts a i E) as [x Hx]. eauto.
  - left. split; [apply getitem_rejects; exact E | reflexivity].
Qed.

(** A negative subscript reads the entry that many places from the end. *)
Lemma getitem_from_end (a : list R) (i : Z) :
  (- Z.of_nat (length a) <= i < 0)%Z ->
  getitem a i = getitem a (Z.of_nat (length a) + i).
Proof.
  intros Hi. unfold getitem.
  destruct (Z.ltb_spec i 0) as [_|]; [|lia].
  destruct (Z.ltb_spec (Z.of_nat (length a) + i) 0) as [|_]; [lia|].
  rewrite (Z.add_comm i). reflexivity.
Qed.

(** ** The radial kernel *)

(** C2: a variant other than 1 and 2 makes the call fail.  Neither branch
    binds [drho_dt], and the [return] that reads it raises
    [UnboundLocalError]; no vector is returned, whatever the other
    arguments are. *)
Theorem radial_fdiff_unrecognized_variant {F : Type}
    (rho_k1 rho_k2 : vec) (p : radial_params) (node ver : Z) (flag : F) :
  ver <> 1%Z -> ver <> 2%Z ->
  radial_fdiff rho_k1 rho_k2 p node ver flag = Raise UnboundLocalError /\
  forall v, radial_fdiff rho_k1 rho_k2 p node ver flag <> Ok v.
Proof.
  intros H1 H2.
  assert (E : radial_fdiff rho_k1 rho_k2 p node ver flag
              = Raise UnboundLocalError).
  { unfold radial_fdiff.
    destruct (Z.eqb_spec ver 1) as [|_]; [contradiction|].
    destruct (Z.eqb_spec ver 2) as [|_]; [contradiction|].
    reflexivity. }
  split; [exact E|]. intros v. rewrite E. discriminate.
Qed.

Lemma radial_fdiff_unrecognized_variant_witness :
  radial_fdiff [3; 5] [1; 1] shell_params 0 3 tt = Raise UnboundLocalError /\
  forall v, radial_fdiff [3; 5] [1; 1] shell_params 0 3 tt <> Ok v.
Proof.
  apply radial_fdiff_unrecognized_variant; lia.
Defined.

(** C4: where [node] is a subscript of ['1/r_j'] and ['1/t_shl'], variant 2
    is variant 1 with every entry multiplied by
    [(1/r_j[node])^2 * (1/t_shl[node])]; a failure of variant 1 is the
    failure of variant 2. *)
Theorem radial_fdiff_variant_consistency {F : Type}
    (rho_k1 rho_k2 : vec) (p : radial_params) (node : Z) (flag : F)
    (rj t : R) :
  getitem (inv_r_j p) node = Ok rj ->
  getitem (inv_t_shl p) node = Ok t ->
  radial_fdiff rho_k1 rho_k2 p node 2 flag
  = res_map (fun v => scal_r v (rj ^ 2 * t))
            (radial_fdiff rho_k1 rho_k2 p node 1 flag).
Proof.
  intros Hrj Ht. unfold radial_fdiff, res_map. simpl.
  destruct (getitem (r_jph p) node) as [r|e]; simpl; auto.
  destruct (vsub rho_k1 rho_k2) as [d|e]; simpl; auto.
  destruct (getitem (inv_dr p) node) as [dr|e]; simpl; auto.
  rewrite Hrj; simpl. rewrite Ht; simpl.
  rewrite scal_r_scal_r. reflexivity.
Qed.

Lemma radial_fdiff_variant_consistency_witness :
  radial_fdiff [3; 5] [1; 1] shell_params 1 2 tt
  = res_map (fun v => scal_r v ((1 / 2) ^ 2 * 2))
            (radial_fdiff [3; 5] [1; 1] shell_params 1 1 tt).
Proof.
  apply radial_fdiff_variant_consistency; reflexivity.
Defined.

(** C6: exchanging [rho_k1] and [rho_k2] negates every entry of the result,
    for variant 1 and for variant 2; a call that fails still fails the same
    way. *)
Theorem radial_fdiff_antisymmetry {F : Type}
    (rho_k1 rho_k2 : vec) (p : radial_params) (node ver : Z) (flag : F) :
  radial_fdiff rho_k2 rho_k1 p node ver flag
  = res_map vneg (radial_fdiff rho_k1 rho_k2 p node ver flag).
Proof.
  unfold radial_fdiff, res_map.
  rewrite (vsub_swap rho_k1 rho_k2). unfold res_map.
  destruct (ver =? 1)%Z; [|destruct (ver =? 2)%Z]; simpl; auto.
  - destruct (getitem (r_jph p) node) as [r|e]; simpl; auto.
    destruct (vsub rho_k1 rho_k2) as [d|e]; simpl; auto.
    destruct (getitem (inv_dr p) node) as [dr|e]; simpl; auto.
    rewrite scal_l_vneg, scal_r_vneg, scal_l_vneg. reflexivity.
  - destruct (getitem (r_jph p) node) as [r|e]; simpl; auto.
    destruct (vsub rho_k1 rho_k2) as [d|e]; simpl; auto.
    destruct (getitem (inv_dr p) node) as [dr|e]; simpl; auto.
    destruct (getitem (inv_r_j p) node) as [rj|e]; simpl; auto.
    destruct (getitem (inv_t_shl p) node) as [t|e]; simpl; auto.
    rewrite scal_l_vneg, scal_r_vneg, scal_l_vneg, !scal_r_vneg.
    reflexivity.
Qed.

(** C10: the sixth argument [flag] is never read: two calls that differ
    only in it, whatever its type, end in the same outcome. *)
Theorem radial_fdiff_flag_irrelevant {F1 F2 : Type}
    (rho_k1 rho_k2 : vec) (p : radial_params) (node ver : Z)
    (flag1 : F1) (flag2 : F2) :
  radial_fdiff rho_k1 rho_k2 p node ver flag1
  = radial_fdiff rho_k1 rho_k2 p node ver flag2.
Proof. reflexivity. Qed.

(** C9, as stated, fails: the subscript [-1] lies outside [0 <= i < len]
    of every indexed array, yet the call returns, with the result computed
    from the last entries [r_jph[1]] and [1/dr[1]]. *)
Lemma radial_fdiff_negative_node :
  within_bounds (r_jph shell_params) (-1) = false /\
  within_bounds (inv_dr shell_params) (-1) = false /\
  radial_fdiff [3; 5] [1; 1] shell_params (-1) 1 tt = Ok [90; 180] /\
  radial_fdiff [3; 5] [1; 1] shell_params (-1) 1 tt
  = radial_fdiff [3; 5] [1; 1] shell_params 1 1 tt.
Proof.
  repeat split; try reflexivity.
  unfold radial_fdiff, shell_params, getitem, vsub, broadcast, scal_l, scal_r.
  simpl. apply f_equal.
  repeat (apply f_equal2; [lra|]). reflexivity.
Qed.

(** With operands that broadcast and every subscript accepted, the call
    returns. *)
Lemma radial_fdiff_returns {F : Type}
    (rho_k1 rho_k2 : vec) (p : radial_params) (node ver : Z) (flag : F) :
  (ver = 1 \/ ver = 2)%Z ->
  is_ok (vsub rho_k1 rho_k2) = true ->
  (forall a, In a (indexed_arrays p ver) -> python_index a node = true) ->
  exists v, radial_fdiff rho_k1 rho_k2 p node ver flag = Ok v.
Proof.
  intros Hver Hd Hall.
  destruct (vsub rho_k1 rho_k2) as [d|e] eqn:Ed; try discriminate.
  assert (get : forall a, In a (indexed_arrays p ver) ->
                          exists x, getitem a node = Ok x).
  { intros a Ha. apply getitem_accepts. apply Hall. exact Ha. }
  unfold radial_fdiff, indexed_arrays in *.
  destruct Hver as [-> | ->]; simpl in *; rewrite Ed.
  - destruct (get (r_jph p)) as [r ->]; auto.
    destruct (get (inv_dr p)) as [dr ->]; auto.
    simpl. eauto.
  - destruct (get (r_jph p)) as [r ->]; auto.
    destruct (get (inv_dr p)) as [dr ->]; auto.
    destruct (get (inv_r_j p)) as [rj ->]; auto.
    destruct (get (inv_t_shl p)) as [t ->]; auto 6.
    simpl. eauto.
Qed.

Lemma some_subscript_rejected (l : list (list R)) (node : Z) :
  (exists a, In a l /\ python_index a node = false) \/
  (forall a, In a l -> python_index a node = true).
Proof.
  induction l as [|b l IH].
  - right. intros a [].
  - destruct (python_index b node) eqn:Eb.
    + destruct IH as [[a [Ha Hout]]|Hall].
      * left. exists a. split; [right; exact Ha | exact Hout].
      * right. intros a [<-|Ha]; auto.
    + left. exists b. split; [left; reflexivity | exact Eb].
Qed.

(** C9, amended: for variant 1 or 2 and operands that broadcast, the call
    raises [IndexError] exactly when [node] is below [-len] or at or above
    [len] of one of the arrays the variant subscripts. *)
Theorem radial_fdiff_index_error {F : Type}
    (rho_k1 rho_k2 : vec) (p : radial_params) (node ver : Z) (flag : F) :
  (ver = 1 \/ ver = 2)%Z ->
  is_ok (vsub rho_k1 rho_k2) = true ->
  (radial_fdiff rho_k1 rho_k2 p node ver flag = Raise IndexError <->
   exists a, In a (indexed_arrays p ver) /\ python_index a node = false).
Proof.
  intros Hver Hd. split.
  - intros Hfail.
    destruct (some_subscript_rejected (indexed_arrays p ver) node)
      as [Hex|Hall]; [exact Hex|].
    destruct (radial_fdiff_returns rho_k1 rho_k2 p node ver flag Hver Hd Hall)
      as [v Hv].
    congruence.
  - intros [a [Ha Hout]].
    destruct (vsub rho_k1 rho_k2) as [d|e] eqn:Ed; try discriminate.
    unfold radial_fdiff, indexed_arrays in *.
    destruct Hver as [-> | ->]; simpl in *; rewrite Ed.
    + destruct (getitem_spec (r_jph p) node) as [[-> _]|[r [-> T1]]];
        simpl; auto.
      destruct (getitem_spec (inv_dr p) node) as [[-> _]|[dr [-> T2]]];
        simpl; auto.
      destruct Ha as [<-|[<-|[]]]; congruence.
    + destruct (getitem_spec (r_jph p) node) as [[-> _]|[r [-> T1]]];
        simpl; auto.
      destruct (getitem_spec (inv_dr p) node) as [[-> _]|[dr [-> T2]]];
        simpl; auto.
      destruct (getitem_spec (inv_r_j p) node) as [[-> _]|[rj [-> T3]]];
        simpl; auto.
      destruct (getitem_spec (inv_t_shl p) node) as [[-> _]|[t [-> T4]]];
        simpl; auto.
      destruct Ha as [<-|[<-|[<-|[<-|[]]]]]; congruence.
Qed.

Lemma radial_fdiff_index_error_witness :
  radial_fdiff [3; 5] [1; 1] shell_params (-3) 2 tt = Raise IndexError <->
  exists a, In a (indexed_arrays shell_params 2) /\
            python_index a (-3) = false.
Proof.
  apply radial_fdiff_index_error.
  - right; reflexivity.
  - reflexivity.
Defined.

(** ** The planar kernel *)

Ltac len :=
  unfold scal_l, scal_r, vneg, finite;
  repeat first [rewrite length_map | rewrite zipw_length by len];
  congruence.

Ltac entry :=
  unfold scal_l, scal_r, vneg;
  repeat first [rewrite (map_nth_lt _ _ _ 0 0) by len
               | rewrite (zipw_nth _ _ _ _ 0 0 0) by len].

(** With one entry per species at both nodes and a non-zero averaged
    viscosity, lines 46 to 53 produce the two terms of the specification,
    and every entry is a real number. *)
Lemma driving_terms_aligned (n : nat) (q1 q2 : node_props) (p : planar_params) :
  species_count n q1 -> species_count n q2 ->
  wt1 p * np_mu q1 + wt2 p * np_mu q2 <> 0 ->
  exists J_conv J_diff : vec,
    driving_terms q1 q2 p = Ok (finite J_conv, J_diff) /\
    length J_conv = n /\ length J_diff = n /\
    forall k, (k < n)%nat ->
      nth k J_conv 0 = spec_J_conv q1 q2 p k /\
      nth k J_diff 0 = spec_J_diff q1 q2 p k.
Proof.
  intros [HD1 HY1] [HD2 HY2] Hmu.
  unfold driving_terms, vadd, vsub, vmul.
  rewrite (broadcast_same_length Rplus (scal_l (wt1 p) (np_D_k q1))) by len.
  simpl.
  rewrite (broadcast_same_length Rplus
             (scal_l (wt1 p) (scal_l (np_rho q1) (np_Y q1)))) by len.
  simpl.
  rewrite (broadcast_same_length Rminus (np_Y q2)) by len.
  simpl.
  rewrite broadcast_same_length by len.
  simpl.
  rewrite vdiv_scalar_finite by exact Hmu.
  eexists; eexists; split; [reflexivity|].
  split; [len|]. split; [len|].
  intros k Hk. subst n.
  unfold spec_J_conv, spec_J_diff.
  split; entry; reflexivity.
Qed.

Lemma net_flux_aligned (tog : R) (J_conv J_diff : vec) :
  length J_conv = length J_diff ->
  net_flux tog (finite J_conv, J_diff)
  = Ok (finite (scal_l tog (zipw Rplus J_conv J_diff))).
Proof.
  intros E. unfold net_flux. rewrite sum_terms_finite. unfold vadd.
  rewrite broadcast_same_length by exact E. simpl.
  rewrite xscal_finite. reflexivity.
Qed.

(** Exchanging the nodes and the weights negates both driving terms. *)
Lemma driving_terms_swap (q1 q2 : node_props) (p : planar_params) :
  driving_terms q2 q1 (swap_weights p)
  = res_map (fun J => (map xneg (fst J), vneg (snd J)))
            (driving_terms q1 q2 p).
Proof.
  unfold driving_terms, res_map. simpl.
  rewrite (vadd_swap (scal_l (wt1 p) (np_D_k q1))).
  destruct (vadd (scal_l (wt1 p) (np_D_k q1)) (scal_l (wt2 p) (np_D_k q2)))
    as [D_k|e]; simpl; auto.
  rewrite (vadd_swap (scal_l (wt1 p) (scal_l (np_rho q1) (np_Y q1)))).
  destruct (vadd (scal_l (wt1 p) (scal_l (np_rho q1) (np_Y q1)))
                 (scal_l (wt2 p) (scal_l (np_rho q2) (np_Y q2))))
    as [rho_k|e]; simpl; auto.
  replace (wt2 p * np_mu q2 + wt1 p * np_mu q1)
    with (wt1 p * np_mu q1 + wt2 p * np_mu q2) by ring.
  replace (wt2 p * np_rho q2 + wt1 p * np_rho q1)
    with (wt1 p * np_rho q1 + wt2 p * np_rho q2) by ring.
  replace (np_P q1 - np_P q2) with (- (np_P q2 - np_P q1)) by ring.
  rewrite scal_r_opp, !scal_r_vneg, !vdiv_scalar_vneg.
  rewrite (vsub_swap (np_Y q2) (np_Y q1)). unfold res_map.
  destruct (vsub (np_Y q2) (np_Y q1)) as [dY|e]; simpl; auto.
  rewrite vmul_vneg_r. unfold res_map.
  destruct (vmul _ dY) as [J|e]; simpl; auto.
  rewrite scal_r_vneg. reflexivity.
Qed.

Lemma net_flux_neg (tog : R) (J : xvec * vec) :
  net_flux tog (map xneg (fst J), vneg (snd J))
  = res_map (map xneg) (net_flux tog J).
Proof.
  unfold net_flux. rewrite sum_terms_neg. unfold res_map.
  destruct (sum_terms J) as [s|e]; simpl; auto.
  rewrite xscal_neg. reflexivity.
Qed.

Section PlanarKernel.

Context {G : Type} `{Provider G}.

(** One call: the provider is set to [TDY1], read, set to [TDY2], read; the
    outcome is that of the arithmetic on what was read. *)
Lemma fickian_adf_run (TDY1 TDY2 : TDY) (p : planar_params) (tog : R)
    (w : world G) :
  let g1 := set_TDY TDY1 (gas w) in
  let g2 := set_TDY TDY2 g1 in
  fickian_adf TDY1 TDY2 p tog w
  = (J <- driving_terms (props_of g1) (props_of g2) p ;; net_flux tog J,
     {| gas := g2; log := log w ++ call_log TDY1 TDY2 |}).
Proof.
  unfold fickian_adf, read_node, bind, set_state, read, ret, lift, call_log,
    node_reads, props_of.
  simpl. repeat rewrite <- app_assoc. simpl.
  destruct (driving_terms _ _ p) as [J|e]; reflexivity.
Qed.

(** C7: whatever the outcome, a call leaves the provider as two
    assignments make it, [gas.TDY = TDY1] and then [gas.TDY = TDY2]; its
    accesses are these two assignments, each followed by the five reads,
    and nothing else. *)
Theorem fickian_adf_provider_effect (TDY1 TDY2 : TDY) (p : planar_params)
    (tog : R) (w : world G) :
  let w' := snd (fickian_adf TDY1 TDY2 p tog w) in
  gas w' = set_TDY TDY2 (set_TDY TDY1 (gas w)) /\
  log w' = log w ++ call_log TDY1 TDY2 /\
  filter is_set (call_log TDY1 TDY2) = [SetTDY TDY1; SetTDY TDY2].
Proof.
  simpl. rewrite fickian_adf_run. simpl. auto.
Qed.

(** C1: with one entry per species at both nodes and a non-zero averaged
    viscosity, the call returns a vector of real numbers with one entry per
    species, and entry [k] is [tog * (J_conv_k + J_diff_k)] of the
    specification. *)
Theorem fickian_adf_formula (n : nat) (TDY1 TDY2 : TDY) (p : planar_params)
    (tog : R) (w : world G) :
  let q1 := props_of (set_TDY TDY1 (gas w)) in
  let q2 := props_of (set_TDY TDY2 (set_TDY TDY1 (gas w))) in
  species_count n q1 -> species_count n q2 ->
  wt1 p * np_mu q1 + wt2 p * np_mu q2 <> 0 ->
  exists v : vec,
    fst (fickian_adf TDY1 TDY2 p tog w) = Ok (finite v) /\
    length v = n /\
    forall k, (k < n)%nat -> nth k v 0 = spec_flux q1 q2 p tog k.
Proof.
  intros q1 q2 H1 H2 Hmu.
  destruct (driving_terms_aligned n q1 q2 p H1 H2 Hmu)
    as [J_conv [J_diff [E [Lc [Ld Hk]]]]].
  rewrite fickian_adf_run. simpl. fold q1 q2. rewrite E. simpl.
  rewrite net_flux_aligned by congruence.
  eexists; split; [reflexivity|]. split; [len|].
  intros k L. destruct (Hk k L) as [Ec Ed].
  unfold spec_flux. rewrite <- Ec, <- Ed. subst n. entry. reflexivity.
Qed.


(** C5: for a provider whose attributes depend only on the state last set,
    exchanging [TDY1] with [TDY2] and ['wt1'] with ['wt2'] negates every
    entry of the result; a call that fails still fails the same way. *)
Theorem fickian_adf_antisymmetry (TDY1 TDY2 : TDY) (p : planar_params)
    (tog : R) (w w' : world G) :
  state_determined G ->
  fst (fickian_adf TDY2 TDY1 (swap_weights p) tog w')
  = res_map (map xneg) (fst (fickian_adf TDY1 TDY2 p tog w)).
Proof.
  intros Hsd. rewrite !fickian_adf_run. simpl.
  rewrite (Hsd TDY2 (gas w') (set_TDY TDY1 (gas w))).
  rewrite (Hsd TDY1 (set_TDY TDY2 (gas w')) (gas w)).
  rewrite driving_terms_swap. unfold res_map.
  destruct (driving_terms _ _ p) as [J|e]; simpl; auto.
  apply net_flux_neg.
Qed.

End PlanarKernel.

(** ** The kernels on concrete inputs *)

Lemma fickian_adf_antisymmetry_witness :
  fst (fickian_adf humid_state air_state (swap_weights boundary_params) 1
         table_world)
  = res_map (map xneg)
      (fst (fickian_adf air_state humid_state boundary_params 1 table_world)).
Proof.
  apply fickian_adf_antisymmetry. intros s g g'. reflexivity.
Defined.

Lemma fickian_adf_formula_witness :
  exists v : vec,
    fst (fickian_adf air_state humid_state boundary_params 1 table_world)
    = Ok (finite v) /\
    length v = 2%nat /\
    forall k, (k < 2)%nat ->
      nth k v 0 = spec_flux (props_of air_state) (props_of humid_state)
                    boundary_params 1 k.
Proof.
  refine (fickian_adf_formula 2 air_state humid_state boundary_params 1
            table_world _ _ _).
  - split; reflexivity.
  - split; reflexivity.
  - simpl. lra.
Defined.


(** The scenario of the specification: one species, both nodes at 350 K and
    density 1, pressures 101325 and 101300. *)
Lemma scenario_terms :
  driving_terms
    (props_of (set_TDY scenario_state (gas scenario_world)))
    (props_of (set_TDY scenario_state
                 (set_TDY scenario_state (gas scenario_world))))
    scenario_params
  = Ok (finite [1.25e-4], [0]).
Proof.
  unfold driving_terms, vdiv_scalar, xdiv, vadd, vsub, vmul, broadcast,
    scal_l, scal_r, vneg, finite.
  simpl.
  destruct (Req_dec_T (0.5 * 2e-5 + 0.5 * 2e-5) 0) as [E|_]; [lra|].
  apply f_equal. apply f_equal2; apply f_equal2; try reflexivity.
  - apply f_equal.
    replace (0.5 * 2e-5 + 0.5 * 2e-5) with 2e-5 by lra. lra.
  - lra.
Qed.

Lemma scenario_run (tog : R) :
  fst (fickian_adf scenario_state scenario_state scenario_params tog
         scenario_world)
  = Ok (finite [tog * 1.25e-4]).
Proof.
  rewrite fickian_adf_run. cbn [fst]. rewrite scenario_terms.
  unfold net_flux, sum_terms, broadcast, finite, xadd, xscal. simpl.
  apply f_equal. apply f_equal2; [|reflexivity].
  apply f_equal. lra.
Qed.

(** C8, as stated, fails: with the flux switched on the scenario does not
    return -0.125. *)
Lemma scenario_flux_is_not_minus_0125 :
  fst (fickian_adf scenario_state scenario_state scenario_params 1
         scenario_world)
  <> Ok (finite [-0.125]).
Proof.
  rewrite scenario_run. unfold finite. simpl. intros E.
  injection E as E. lra.
Qed.

(** C8, amended: in the scenario the diffusive term is zero, the advective
    term is [-1 * 1e-12 * (101300 - 101325) * 100 / 2e-5 = +1.25e-4], and
    the call returns [tog] times it, so 1.25e-4 with the flux switched
    on. *)
Theorem scenario_flux :
  driving_terms
    (props_of (set_TDY scenario_state (gas scenario_world)))
    (props_of (set_TDY scenario_state
                 (set_TDY scenario_state (gas scenario_world))))
    scenario_params
  = Ok (finite [1.25e-4], [0]) /\
  (forall tog,
     fst (fickian_adf scenario_state scenario_state scenario_params tog
            scenario_world)
     = Ok (finite [tog * 1.25e-4])) /\
  fst (fickian_adf scenario_state scenario_state scenario_params 1
         scenario_world)
  = Ok (finite [1.25e-4]).
Proof.
  split; [exact scenario_terms|]. split; [exact scenario_run|].
  rewrite scenario_run. unfold finite. simpl.
  apply f_equal. apply f_equal2; [|reflexivity]. apply f_equal. lra.
Qed.

(** ** Further properties of the radial kernel *)

Lemma broadcast_clash {A B C : Type} (f : A -> B -> C)
    (xs : list A) (ys : list B) :
  shapes_clash xs ys -> broadcast f xs ys = Raise ValueError.
Proof.
  intros [Hne [Hx Hy]]. unfold broadcast.
  destruct xs as [|x [|x' xs]]; destruct ys as [|y [|y' ys]];
    simpl in *; try congruence.
  destruct (Nat.eqb_spec (length xs) (length ys)) as [E|_]; [|reflexivity].
  congruence.
Qed.

Lemma zipw_map_l {A A' B C : Type} (f : A' -> B -> C) (a : A -> A')
    (xs : list A) (ys : list B) :
  zipw f (map a xs) ys = zipw (fun x y => f (a x) y) xs ys.
Proof.
  revert ys; induction xs as [|x xs IH]; intros [|y ys]; simpl; auto.
  rewrite IH. reflexivity.
Qed.

Lemma zipw_diag {A C : Type} (f : A -> A -> C) (xs : list A) :
  zipw f xs xs = map (fun x => f x x) xs.
Proof. induction xs as [|x xs IH]; simpl; [|rewrite IH]; reflexivity. Qed.

Lemma map_const_repeat {A B : Type} (b : B) (xs : list A) :
  map (fun _ => b) xs = repeat b (length xs).
Proof. induction xs as [|x xs IH]; simpl; [|rewrite IH]; reflexivity. Qed.

Lemma vsub_self (v : vec) : vsub v v = Ok (repeat 0 (length v)).
Proof.
  unfold vsub. rewrite broadcast_same_length by reflexivity.
  rewrite zipw_diag, <- map_const_repeat. apply f_equal.
  apply map_ext. intros; ring.
Qed.

Lemma scal_l_zeros (c : R) (n : nat) : scal_l c (repeat 0 n) = repeat 0 n.
Proof.
  induction n as [|n IH]; simpl; [reflexivity|].
  rewrite IH. f_equal. ring.
Qed.

Lemma scal_r_zeros (c : R) (n : nat) : scal_r (repeat 0 n) c = repeat 0 n.
Proof.
  induction n as [|n IH]; simpl; [reflexivity|].
  rewrite IH. f_equal. ring.
Qed.

Lemma getitem_In (a : list R) (i : Z) (x : R) :
  getitem a i = Ok x -> In x a.
Proof.
  unfold getitem.
  destruct ((if (i <? 0)%Z then (i + Z.of_nat (length a))%Z else i) <? 0)%Z;
    [discriminate|].
  destruct (nth_error a _) as [y|] eqn:E; [|discriminate].
  intros [= <-]. eapply nth_error_In. exact E.
Qed.

(** X1: equal partial densities in the two shells give the zero rate, one
    entry per species, for both variants. *)
Theorem radial_fdiff_no_gradient {F : Type}
    (rho_k : vec) (p : radial_params) (node ver : Z) (flag : F) :
  (ver = 1 \/ ver = 2)%Z ->
  (forall a, In a (indexed_arrays p ver) -> python_index a node = true) ->
  radial_fdiff rho_k rho_k p node ver flag = Ok (repeat 0 (length rho_k)).
Proof.
  intros Hver Hall.
  assert (get : forall a, In a (indexed_arrays p ver) ->
                          exists x, getitem a node = Ok x).
  { intros a Ha. apply getitem_accepts. apply Hall. exact Ha. }
  unfold radial_fdiff, indexed_arrays in *. rewrite vsub_self.
  destruct Hver as [-> | ->]; simpl in *.
  - destruct (get (r_jph p)) as [r ->]; auto.
    destruct (get (inv_dr p)) as [dr ->]; auto.
    simpl. rewrite scal_l_zeros, scal_r_zeros, scal_l_zeros. reflexivity.
  - destruct (get (r_jph p)) as [r ->]; auto.
    destruct (get (inv_dr p)) as [dr ->]; auto.
    destruct (get (inv_r_j p)) as [rj ->]; auto.
    destruct (get (inv_t_shl p)) as [t ->]; auto 6.
    simpl.
    rewrite scal_l_zeros, scal_r_zeros, scal_l_zeros, !scal_r_zeros.
    reflexivity.
Qed.

Lemma radial_fdiff_no_gradient_witness :
  radial_fdiff [3; 5] [3; 5] shell_params (-2) 2 tt = Ok [0; 0].
Proof.
  apply (radial_fdiff_no_gradient [3; 5] shell_params (-2) 2 tt).
  - right; reflexivity.
  - intros a [<-|[<-|[<-|[<-|[]]]]]; reflexivity.
Defined.




(** X4: a negative [node] is an alias: when the arrays the variant
    subscripts all have [n] entries, the call at [node] in [-n .. -1] is
    the call at [n + node]. *)
Theorem radial_fdiff_node_from_end {F : Type}
    (rho_k1 rho_k2 : vec) (p : radial_params) (node ver : Z) (flag : F)
    (n : nat) :
  (forall a, In a (indexed_arrays p ver) -> length a = n) ->
  (- Z.of_nat n <= node < 0)%Z ->
  radial_fdiff rho_k1 rho_k2 p node ver flag
  = radial_fdiff rho_k1 rho_k2 p (Z.of_nat n + node) ver flag.
Proof.
  intros Hlen Hnode.
  assert (alias : forall a, In a (indexed_arrays p ver) ->
                            getitem a node = getitem a (Z.of_nat n + node)).
  { intros a Ha. rewrite <- (Hlen a Ha). apply getitem_from_end.
    rewrite (Hlen a Ha). exact Hnode. }
  unfold radial_fdiff, indexed_arrays in *.
  destruct (ver =? 1)%Z; [|destruct (ver =? 2)%Z]; simpl in *; auto.
  - rewrite (alias (r_jph p)), (alias (inv_dr p)) by auto. reflexivity.
  - rewrite (alias (r_jph p)), (alias (inv_dr p)), (alias (inv_r_j p)),
      (alias (inv_t_shl p)) by auto 6.
    reflexivity.
Qed.

Lemma radial_fdiff_node_from_end_witness :
  radial_fdiff [3; 5] [1; 1] shell_params (-2) 2 tt
  = radial_fdiff [3; 5] [1; 1] shell_params 0 2 tt.
Proof.
  refine (radial_fdiff_node_from_end [3; 5] [1; 1] shell_params (-2) 2 tt 2
            _ _).
  - intros a [<-|[<-|[<-|[<-|[]]]]]; reflexivity.
  - lia.
Defined.

(** X5: ['r_jph'] is subscripted before the densities are subtracted: a
    [node] it rejects raises [IndexError] for variant 1 and 2 even when the
    two density vectors could not be combined. *)
Theorem radial_fdiff_index_checked_first {F : Type}
    (rho_k1 rho_k2 : vec) (p : radial_params) (node ver : Z) (flag : F) :
  (ver = 1 \/ ver = 2)%Z ->
  python_index (r_jph p) node = false ->
  radial_fdiff rho_k1 rho_k2 p node ver flag = Raise IndexError.
Proof.
  intros Hver Hout. apply getitem_rejects in Hout.
  unfold radial_fdiff.
  destruct Hver as [-> | ->]; simpl; rewrite Hout; reflexivity.
Qed.

Lemma radial_fdiff_index_checked_first_witness :
  radial_fdiff [3; 5; 8] [1; 1] shell_params 2 1 tt = Raise IndexError.
Proof.
  apply radial_fdiff_index_checked_first; [left|]; reflexivity.
Defined.

(** X6: density vectors of different lengths, neither of length one, raise
    [ValueError] for variant 1 and 2 once ['r_jph'] accepted [node],
    whatever the remaining arrays hold. *)
Theorem radial_fdiff_shape_mismatch {F : Type}
    (rho_k1 rho_k2 : vec) (p : radial_params) (node ver : Z) (flag : F) :
  (ver = 1 \/ ver = 2)%Z ->
  python_index (r_jph p) node = true ->
  shapes_clash rho_k1 rho_k2 ->
  radial_fdiff rho_k1 rho_k2 p node ver flag = Raise ValueError.
Proof.
  intros Hver Hin Hclash.
  destruct (getitem_accepts _ _ Hin) as [r Hr].
  unfold radial_fdiff, vsub. rewrite (broadcast_clash Rminus) by exact Hclash.
  destruct Hver as [-> | ->]; simpl; rewrite Hr; reflexivity.
Qed.

Lemma radial_fdiff_shape_mismatch_witness :
  radial_fdiff [3; 5; 8] [1; 1] shell_params 1 2 tt = Raise ValueError.
Proof.
  apply radial_fdiff_shape_mismatch.
  - right; reflexivity.
  - reflexivity.
  - unfold shapes_clash. simpl. lia.
Defined.

(** X7: a density vector of length one acts as a scalar: with [rho_k2 = [c]]
    the call is the call on [rho_k1] and the vector that repeats [c]. *)
Theorem radial_fdiff_scalar_inner {F : Type}
    (rho_k1 : vec) (c : R) (p : radial_params) (node ver : Z) (flag : F) :
  radial_fdiff rho_k1 [c] p node ver flag
  = radial_fdiff rho_k1 (repeat c (length rho_k1)) p node ver flag.
Proof.
  assert (E : vsub rho_k1 [c] = vsub rho_k1 (repeat c (length rho_k1))).
  { unfold vsub.
    rewrite (broadcast_same_length Rminus rho_k1 (repeat c (length rho_k1)))
      by (rewrite repeat_length; reflexivity).
    unfold broadcast.
    assert (Z : forall v : vec,
               map (fun x => x - c) v = zipw Rminus v (repeat c (length v))).
    { induction v as [|x v IH]; simpl; [|rewrite IH]; reflexivity. }
    destruct rho_k1 as [|x [|x' xs]]; simpl; auto.
    specialize (Z xs). rewrite Z. reflexivity. }
  unfold radial_fdiff. rewrite E. reflexivity.
Qed.

Lemma Forall2_nth_le (xs ys : vec) (k : nat) :
  Forall2 Rle xs ys -> (k < length xs)%nat -> nth k xs 0 <= nth k ys 0.
Proof.
  intros Hle. revert k.
  induction Hle as [|x y xs ys Hxy _ IH]; intros [|k] L; simpl in *;
    try lia; auto.
  apply IH. lia.
Qed.

(** X8: the sign convention of the docstring: with non-negative
    coefficients and no species denser in the inner shell than in the
    outer, no entry of the rate is negative. *)
Theorem radial_fdiff_sign {F : Type}
    (rho_k1 rho_k2 : vec) (p : radial_params) (node ver : Z) (flag : F) :
  (ver = 1 \/ ver = 2)%Z ->
  (forall a, In a (indexed_arrays p ver) -> python_index a node = true) ->
  0 <= D_eff_naf p -> 0 <= p_eff_SAnaf p -> 0 <= eps_tau2_n2 p ->
  Forall (Rle 0) (inv_dr p) -> Forall (Rle 0) (inv_t_shl p) ->
  Forall2 Rle rho_k2 rho_k1 ->
  exists v,
    radial_fdiff rho_k1 rho_k2 p node ver flag = Ok v /\
    length v = length rho_k1 /\
    Forall (Rle 0) v.
Proof.
  intros Hver Hall HD Hp He Hdr Ht Hle.
  assert (L : length rho_k1 = length rho_k2).
  { symmetry. eapply Forall2_length. exact Hle. }
  assert (get : forall a, In a (indexed_arrays p ver) ->
                          exists x, getitem a node = Ok x).
  { intros a Ha. apply getitem_accepts. apply Hall. exact Ha. }
  assert (Hd : Forall (Rle 0) (zipw Rminus rho_k1 rho_k2)).
  { clear - Hle. induction Hle as [|x y xs ys Hxy _ IH]; simpl; auto.
    constructor; [lra | exact IH]. }
  assert (Pl : forall c v, 0 <= c -> Forall (Rle 0) v ->
                           Forall (Rle 0) (scal_l c v)).
  { intros c v Hc Hv. unfold scal_l. apply Forall_map.
    eapply Forall_impl; [|exact Hv]. intros x Hx. simpl.
    apply Rmult_le_pos; assumption. }
  assert (Pr : forall c v, 0 <= c -> Forall (Rle 0) v ->
                           Forall (Rle 0) (scal_r v c)).
  { intros c v Hc Hv. unfold scal_r. apply Forall_map.
    eapply Forall_impl; [|exact Hv]. intros x Hx. simpl.
    apply Rmult_le_pos; assumption. }
  assert (Sq : forall x : R, 0 <= x ^ 2).
  { intros x. simpl. nra. }
  assert (Hc : 0 <= D_eff_naf p * p_eff_SAnaf p * eps_tau2_n2 p).
  { apply Rmult_le_pos; [apply Rmult_le_pos|]; assumption. }
  unfold radial_fdiff, indexed_arrays, vsub in *.
  rewrite broadcast_same_length by exact L.
  destruct Hver as [-> | ->]; simpl in *.
  - destruct (get (r_jph p)) as [r ->]; auto.
    destruct (get (inv_dr p)) as [dr Edr]; auto. rewrite Edr. simpl.
    assert (0 <= dr).
    { eapply Forall_forall; [exact Hdr|]. eapply getitem_In. exact Edr. }
    eexists. split; [reflexivity|]. split.
    + unfold scal_l, scal_r. rewrite !length_map, zipw_length; auto.
    + auto.
  - destruct (get (r_jph p)) as [r ->]; auto.
    destruct (get (inv_dr p)) as [dr Edr]; auto. rewrite Edr. simpl.
    destruct (get (inv_r_j p)) as [rj ->]; auto.
    destruct (get (inv_t_shl p)) as [t Et]; auto 6. rewrite Et. simpl.
    assert (0 <= dr).
    { eapply Forall_forall; [exact Hdr|]. eapply getitem_In. exact Edr. }
    assert (0 <= t).
    { eapply Forall_forall; [exact Ht|]. eapply getitem_In. exact Et. }
    eexists. split; [reflexivity|]. split.
    + unfold scal_l, scal_r. rewrite !length_map, zipw_length; auto.
    + auto 7.
Qed.

Lemma radial_fdiff_sign_witness :
  exists v,
    radial_fdiff [3; 5] [1; 5] shell_params 1 2 tt = Ok v /\
    length v = 2%nat /\
    Forall (Rle 0) v.
Proof.
  refine (radial_fdiff_sign [3; 5] [1; 5] shell_params 1 2 tt _ _ _ _ _ _ _ _).
  - right; reflexivity.
  - intros a [<-|[<-|[<-|[<-|[]]]]]; reflexivity.
  - simpl; lra.
  - simpl; lra.
  - simpl; lra.
  - simpl. repeat constructor; lra.
  - simpl. repeat constructor; lra.
  - repeat constructor; lra.
Defined.

(** X9: variant 1 entry by entry: for density vectors of one length and a
    [node] that ['r_jph'] and ['1/dr'] accept, the result has that length
    and entry [k] is
    [D_eff_naf * p_eff_SAnaf * eps/tau2_n2 * (r_jph^2 * (rho_k1 - rho_k2) * 1/dr)]. *)
Theorem radial_fdiff_entries_core_shell {F : Type}
    (rho_k1 rho_k2 : vec) (p : radial_params) (node : Z) (flag : F)
    (r dr : R) :
  length rho_k1 = length rho_k2 ->
  getitem (r_jph p) node = Ok r ->
  getitem (inv_dr p) node = Ok dr ->
  exists v,
    radial_fdiff rho_k1 rho_k2 p node 1 flag = Ok v /\
    length v = length rho_k1 /\
    forall k, (k < length rho_k1)%nat ->
      nth k v 0
      = D_eff_naf p * p_eff_SAnaf p * eps_tau2_n2 p
        * (r ^ 2 * (nth k rho_k1 0 - nth k rho_k2 0) * dr).
Proof.
  intros L Hr Hdr. unfold radial_fdiff, vsub. simpl.
  rewrite Hr. simpl. rewrite broadcast_same_length by exact L. simpl.
  rewrite Hdr. simpl.
  eexists. split; [reflexivity|]. split; [len|].
  intros k Lk. entry. reflexivity.
Qed.

Lemma radial_fdiff_entries_core_shell_witness :
  exists v,
    radial_fdiff [3; 5] [1; 1] shell_params 1 1 tt = Ok v /\
    length v = 2%nat /\
    forall k, (k < 2)%nat ->
      nth k v 0
      = 2 * 1 * (1 / 2) * (3 ^ 2 * (nth k [3; 5] 0 - nth k [1; 1] 0) * 5).
Proof.
  refine (radial_fdiff_entries_core_shell [3; 5] [1; 1] shell_params 1 tt
            3 5 _ _ _); reflexivity.
Defined.

(** X10: variant 2 entry by entry: with ['1/r_j'] and ['1/t_shl'] accepting
    [node] as well, entry [k] is the entry of variant 1 times
    [(1/r_j)^2] times [1/t_shl]. *)
Theorem radial_fdiff_entries_flooded_agg {F : Type}
    (rho_k1 rho_k2 : vec) (p : radial_params) (node : Z) (flag : F)
    (r dr rj t : R) :
  length rho_k1 = length rho_k2 ->
  getitem (r_jph p) node = Ok r ->
  getitem (inv_dr p) node = Ok dr ->
  getitem (inv_r_j p) node = Ok rj ->
  getitem (inv_t_shl p) node = Ok t ->
  exists v,
    radial_fdiff rho_k1 rho_k2 p node 2 flag = Ok v /\
    length v = length rho_k1 /\
    forall k, (k < length rho_k1)%nat ->
      nth k v 0
      = D_eff_naf p * p_eff_SAnaf p * eps_tau2_n2 p
        * (r ^ 2 * (nth k rho_k1 0 - nth k rho_k2 0) * dr)
        * rj ^ 2 * t.
Proof.
  intros L Hr Hdr Hrj Ht. unfold radial_fdiff, vsub. simpl.
  rewrite Hr. simpl. rewrite broadcast_same_length by exact L. simpl.
  rewrite Hdr. simpl. rewrite Hrj. simpl. rewrite Ht. simpl.
  eexists. split; [reflexivity|]. split; [len|].
  intros k Lk. entry. reflexivity.
Qed.

Lemma radial_fdiff_entries_flooded_agg_witness :
  exists v,
    radial_fdiff [3; 5] [1; 1] shell_params 1 2 tt = Ok v /\
    length v = 2%nat /\
    forall k, (k < 2)%nat ->
      nth k v 0
      = 2 * 1 * (1 / 2) * (3 ^ 2 * (nth k [3; 5] 0 - nth k [1; 1] 0) * 5)
        * (1 / 2) ^ 2 * 2.
Proof.
  refine (radial_fdiff_entries_flooded_agg [3; 5] [1; 1] shell_params 1 tt
            3 5 (1 / 2) 2 _ _ _ _ _); reflexivity.
Defined.

(** ** Further properties of the planar kernel *)

Lemma vsum_scal_l (c : R) (v : vec) : vsum (scal_l c v) = c * vsum v.
Proof.
  induction v as [|x v IH]; simpl; [ring|].
  unfold vsum in *. simpl. rewrite IH. ring.
Qed.

Lemma vsum_scal_r (v : vec) (c : R) : vsum (scal_r v c) = vsum v * c.
Proof.
  induction v as [|x v IH]; simpl; [ring|].
  unfold vsum in *. simpl. rewrite IH. ring.
Qed.

Lemma vsum_vneg (v : vec) : vsum (vneg v) = - vsum v.
Proof.
  induction v as [|x v IH]; simpl; [ring|].
  unfold vsum in *. simpl. rewrite IH. ring.
Qed.

Lemma vsum_div (v : vec) (c : R) :
  vsum (map (fun x => x / c) v) = vsum v / c.
Proof.
  induction v as [|x v IH]; simpl; [unfold Rdiv; ring|].
  unfold vsum in *. simpl. rewrite IH. unfold Rdiv. ring.
Qed.

Lemma vsum_zipw_plus (xs ys : vec) :
  length xs = length ys -> vsum (zipw Rplus xs ys) = vsum xs + vsum ys.
Proof.
  revert ys; induction xs as [|x xs IH]; intros [|y ys] E; simpl in *;
    try discriminate.
  - ring.
  - unfold vsum in *. simpl. rewrite IH by lia. ring.
Qed.

Lemma vdiv_scalar_by_zero (v : vec) :
  vdiv_scalar v 0 = repeat None (length v).
Proof.
  unfold vdiv_scalar, xdiv.
  destruct (Req_dec_T 0 0) as [_|N]; [|contradiction N; reflexivity].
  apply map_const_repeat.
Qed.

Lemma zipw_xadd_none (n : nat) (v : vec) :
  length v = n -> zipw xadd (repeat None n) v = repeat None n.
Proof.
  revert v; induction n as [|n IH]; intros [|x v] E; simpl in *;
    try discriminate; auto.
  rewrite IH by lia. reflexivity.
Qed.

Lemma xscal_none (c : R) (n : nat) :
  map (xscal c) (repeat None n) = repeat None n.
Proof. induction n as [|n IH]; simpl; [|rewrite IH]; reflexivity. Qed.

(** Lines 46 to 53 on vectors of one length [n], whatever the averaged
    viscosity is. *)
Lemma driving_terms_shape (n : nat) (q1 q2 : node_props) (p : planar_params) :
  species_count n q1 -> species_count n q2 ->
  exists (N J_diff : vec),
    driving_terms q1 q2 p
    = Ok (vdiv_scalar N (wt1 p * np_mu q1 + wt2 p * np_mu q2), J_diff) /\
    length N = n /\ length J_diff = n.
Proof.
  intros [HD1 HY1] [HD2 HY2].
  unfold driving_terms, vadd, vsub, vmul.
  rewrite (broadcast_same_length Rplus (scal_l (wt1 p) (np_D_k q1))) by len.
  simpl.
  rewrite (broadcast_same_length Rplus
             (scal_l (wt1 p) (scal_l (np_rho q1) (np_Y q1)))) by len.
  simpl.
  rewrite (broadcast_same_length Rminus (np_Y q2)) by len.
  simpl.
  rewrite broadcast_same_length by len.
  simpl.
  eexists; eexists; split; [reflexivity|].
  split; len.
Qed.

Section PlanarFurther.

Context {G : Type} `{Provider G}.

(** X11: no gradient, no flux: for a provider whose attributes depend only
    on the state last set, the same state at both nodes gives the zero
    vector, whatever the weights and the toggle. *)
Theorem fickian_adf_no_gradient (n : nat) (s : TDY) (p : planar_params)
    (tog : R) (w : world G) :
  let q := props_of (set_TDY s (gas w)) in
  state_determined G ->
  species_count n q ->
  wt1 p * np_mu q + wt2 p * np_mu q <> 0 ->
  fst (fickian_adf s s p tog w) = Ok (finite (repeat 0 n)).
Proof.
  intros q Hsd Hn Hmu.
  rewrite fickian_adf_run. cbn [fst].
  rewrite (Hsd s (set_TDY s (gas w)) (gas w)). fold q.
  destruct (driving_terms_aligned n q q p Hn Hn Hmu)
    as [J_conv [J_diff [E [Lc [Ld Hk]]]]].
  rewrite E. simpl. rewrite net_flux_aligned by congruence.
  do 2 apply f_equal.
  apply (nth_ext _ _ 0 0).
  - rewrite repeat_length. len.
  - intros k Lk.
    assert (Kn : (k < n)%nat).
    { revert Lk. unfold scal_l. rewrite length_map, zipw_length; congruence. }
    destruct (Hk k Kn) as [Ec Ed].
    unfold scal_l.
    rewrite (map_nth_lt _ _ _ 0 0) by (rewrite zipw_length; congruence).
    rewrite (zipw_nth _ _ _ _ 0 0 0) by congruence.
    rewrite Ec, Ed, nth_repeat.
    unfold spec_J_conv, spec_J_diff. field. exact Hmu.
Qed.

(** X12: the toggle is a scale factor: the outcome for [tog] is the outcome
    for [tog = 1] with every entry multiplied by [tog]. *)
Theorem fickian_adf_toggle_scales (TDY1 TDY2 : TDY) (p : planar_params)
    (tog : R) (w : world G) :
  fst (fickian_adf TDY1 TDY2 p tog w)
  = res_map (map (xscal tog)) (fst (fickian_adf TDY1 TDY2 p 1 w)).
Proof.
  rewrite !fickian_adf_run. cbn [fst]. unfold res_map.
  destruct (driving_terms _ _ p) as [J|e]; simpl; auto.
  unfold net_flux. destruct (sum_terms J) as [s|e]; simpl; auto.
  rewrite xscal_one. reflexivity.
Qed.

(** X13: for a provider whose attributes depend only on the state last set,
    the outcome of a call does not depend on what the provider was used
    for before: the same call made later gives the same outcome. *)
Theorem fickian_adf_repeatable (TDY1 TDY2 : TDY) (p : planar_params)
    (tog : R) (w w' : world G) :
  state_determined G ->
  fst (fickian_adf TDY1 TDY2 p tog w') = fst (fickian_adf TDY1 TDY2 p tog w).
Proof.
  intros Hsd. rewrite !fickian_adf_run. cbn [fst].
  rewrite (Hsd TDY1 (gas w') (gas w)).
  rewrite (Hsd TDY2 (set_TDY TDY1 (gas w')) (set_TDY TDY1 (gas w))).
  reflexivity.
Qed.

(** X14: a zero averaged viscosity is not switched off by the toggle: every
    entry of the result is inf or nan, also for [tog = 0]. *)
Theorem fickian_adf_zero_viscosity (n : nat) (TDY1 TDY2 : TDY)
    (p : planar_params) (tog : R) (w : world G) :
  let q1 := props_of (set_TDY TDY1 (gas w)) in
  let q2 := props_of (set_TDY TDY2 (set_TDY TDY1 (gas w))) in
  species_count n q1 -> species_count n q2 ->
  wt1 p * np_mu q1 + wt2 p * np_mu q2 = 0 ->
  fst (fickian_adf TDY1 TDY2 p tog w) = Ok (repeat None n).
Proof.
  intros q1 q2 H1 H2 Hmu.
  destruct (driving_terms_shape n q1 q2 p H1 H2) as [N [J_diff [E [LN Ld]]]].
  rewrite fickian_adf_run. cbn [fst]. fold q1 q2. rewrite E, Hmu.
  rewrite vdiv_scalar_by_zero, LN.
  unfold net_flux, sum_terms. cbn [fst snd res_bind].
  rewrite broadcast_same_length by (rewrite repeat_length; congruence).
  cbn [res_bind]. rewrite zipw_xadd_none by exact Ld.
  rewrite xscal_none. reflexivity.
Qed.

(** X15: diffusion coefficients that come in different numbers at the two
    nodes, neither a single one, make the call raise [ValueError]. *)
Theorem fickian_adf_shape_mismatch (TDY1 TDY2 : TDY) (p : planar_params)
    (tog : R) (w : world G) :
  let q1 := props_of (set_TDY TDY1 (gas w)) in
  let q2 := props_of (set_TDY TDY2 (set_TDY TDY1 (gas w))) in
  shapes_clash (np_D_k q1) (np_D_k q2) ->
  fst (fickian_adf TDY1 TDY2 p tog w) = Raise ValueError.
Proof.
  intros q1 q2 Hclash.
  rewrite fickian_adf_run. cbn [fst]. fold q1 q2.
  unfold driving_terms, vadd.
  rewrite broadcast_clash; [reflexivity|].
  unfold shapes_clash, scal_l in *. rewrite !length_map. exact Hclash.
Qed.

End PlanarFurther.

(** X16: Darcy's law for the whole mixture: when the mass fractions sum to
    one at both nodes, the advective term summed over the species is
    [- rho * K_g * (P2 - P1) * (1/dy) / mu] with the averaged density and
    viscosity. *)
Theorem driving_terms_darcy_total (n : nat) (q1 q2 : node_props)
    (p : planar_params) :
  species_count n q1 -> species_count n q2 ->
  wt1 p * np_mu q1 + wt2 p * np_mu q2 <> 0 ->
  vsum (np_Y q1) = 1 -> vsum (np_Y q2) = 1 ->
  exists J_conv J_diff : vec,
    driving_terms q1 q2 p = Ok (finite J_conv, J_diff) /\
    vsum J_conv
    = - (wt1 p * np_rho q1 + wt2 p * np_rho q2) * K_g p
        * (np_P q2 - np_P q1) * inv_dy p
        / (wt1 p * np_mu q1 + wt2 p * np_mu q2).
Proof.
  intros [HD1 HY1] [HD2 HY2] Hmu S1 S2.
  unfold driving_terms, vadd, vsub, vmul.
  rewrite (broadcast_same_length Rplus (scal_l (wt1 p) (np_D_k q1))) by len.
  simpl.
  rewrite (broadcast_same_length Rplus
             (scal_l (wt1 p) (scal_l (np_rho q1) (np_Y q1)))) by len.
  simpl.
  rewrite (broadcast_same_length Rminus (np_Y q2)) by len.
  simpl.
  rewrite broadcast_same_length by len.
  simpl.
  rewrite vdiv_scalar_finite by exact Hmu.
  eexists; eexists; split; [reflexivity|].
  rewrite vsum_div, !vsum_scal_r, vsum_vneg, vsum_zipw_plus by len.
  rewrite !vsum_scal_l, S1, S2. field. exact Hmu.
Qed.

Lemma driving_terms_darcy_total_witness :
  exists J_conv J_diff : vec,
    driving_terms (props_of air_state) (props_of humid_state) boundary_params
    = Ok (finite J_conv, J_diff) /\
    vsum J_conv
    = - (1 / 4 * 1 + 3 / 4 * 2) * 1 * (2 * 287 * 350 - 1 * 287 * 300) * 10
        / (1 / 4 * 2e-5 + 3 / 4 * 2e-5).
Proof.
  refine (driving_terms_darcy_total 2 (props_of air_state)
            (props_of humid_state) boundary_params _ _ _ _ _).
  - split; reflexivity.
  - split; reflexivity.
  - simpl. lra.
  - unfold vsum. simpl. lra.
  - unfold vsum. simpl. lra.
Defined.

Section PlanarSign.

Context {G : Type} `{Provider G}.

(** X17: the sign convention of the docstring: with the pressure and every
    mass fraction at node 1 at least those at node 2, and no negative
    attribute, parameter or toggle, no entry of the flux is negative. *)
Theorem fickian_adf_sign (n : nat) (TDY1 TDY2 : TDY) (p : planar_params)
    (tog : R) (w : world G) :
  let q1 := props_of (set_TDY TDY1 (gas w)) in
  let q2 := props_of (set_TDY TDY2 (set_TDY TDY1 (gas w))) in
  species_count n q1 -> species_count n q2 ->
  physical_props q1 -> physical_props q2 -> physical_params p ->
  0 < wt1 p * np_mu q1 + wt2 p * np_mu q2 ->
  0 <= tog ->
  np_P q2 <= np_P q1 ->
  Forall2 Rle (np_Y q2) (np_Y q1) ->
  exists v : vec,
    fst (fickian_adf TDY1 TDY2 p tog w) = Ok (finite v) /\
    length v = n /\
    forall k, (k < n)%nat -> 0 <= nth k v 0.
Proof.
  intros q1 q2 H1 H2 [Hr1 [HDk1 HYk1]] [Hr2 [HDk2 HYk2]]
    [Hw1 [Hw2 [HK [Hdy He]]]] Hmu Htog HP HY.
  assert (Hmu' : wt1 p * np_mu q1 + wt2 p * np_mu q2 <> 0) by lra.
  destruct (driving_terms_aligned n q1 q2 p H1 H2 Hmu')
    as [J_conv [J_diff [E [Lc [Ld Hk]]]]].
  rewrite fickian_adf_run. cbn [fst]. fold q1 q2. rewrite E. simpl.
  rewrite net_flux_aligned by congruence.
  eexists; split; [reflexivity|]. split; [len|].
  intros k Kn. destruct (Hk k Kn) as [Ec Ed].
  unfold scal_l.
  rewrite (map_nth_lt _ _ _ 0 0) by (rewrite zipw_length; congruence).
  rewrite (zipw_nth _ _ _ _ 0 0 0) by congruence.
  rewrite Ec, Ed. unfold spec_J_conv, spec_J_diff.
  destruct H1 as [LD1 LY1]. destruct H2 as [LD2 LY2].
  assert (Y1k : 0 <= nth k (np_Y q1) 0).
  { apply Forall_nth; [exact HYk1 | lia]. }
  assert (Y2k : 0 <= nth k (np_Y q2) 0).
  { apply Forall_nth; [exact HYk2 | lia]. }
  assert (D1k : 0 <= nth k (np_D_k q1) 0).
  { apply Forall_nth; [exact HDk1 | lia]. }
  assert (D2k : 0 <= nth k (np_D_k q2) 0).
  { apply Forall_nth; [exact HDk2 | lia]. }
  assert (dY : nth k (np_Y q2) 0 <= nth k (np_Y q1) 0).
  { apply Forall2_nth_le; [exact HY | lia]. }
  set (y1 := nth k (np_Y q1) 0) in *. set (y2 := nth k (np_Y q2) 0) in *.
  set (d1 := nth k (np_D_k q1) 0) in *. set (d2 := nth k (np_D_k q2) 0) in *.
  set (mu := wt1 p * np_mu q1 + wt2 p * np_mu q2) in *.
  assert (Hrk : 0 <= wt1 p * (np_rho q1 * y1) + wt2 p * (np_rho q2 * y2)).
  { apply Rplus_le_le_0_compat; apply Rmult_le_pos; auto;
      apply Rmult_le_pos; auto. }
  assert (HDk : 0 <= wt1 p * d1 + wt2 p * d2).
  { apply Rplus_le_le_0_compat; apply Rmult_le_pos; auto. }
  assert (Hrho : 0 <= wt1 p * np_rho q1 + wt2 p * np_rho q2).
  { apply Rplus_le_le_0_compat; apply Rmult_le_pos; auto. }
  assert (Hinv : 0 <= / mu).
  { apply Rlt_le. apply Rinv_0_lt_compat. exact Hmu. }
  apply Rmult_le_pos; [exact Htog|].
  apply Rplus_le_le_0_compat.
  - replace (- (wt1 p * (np_rho q1 * y1) + wt2 p * (np_rho q2 * y2)) * K_g p
             * (np_P q2 - np_P q1) * inv_dy p / mu)
      with ((wt1 p * (np_rho q1 * y1) + wt2 p * (np_rho q2 * y2)) * K_g p
            * (np_P q1 - np_P q2) * inv_dy p * / mu)
      by (unfold Rdiv; ring).
    repeat apply Rmult_le_pos; auto. lra.
  - replace (- eps_tau2 p * (wt1 p * d1 + wt2 p * d2)
             * (wt1 p * np_rho q1 + wt2 p * np_rho q2) * (y2 - y1) * inv_dy p)
      with (eps_tau2 p * (wt1 p * d1 + wt2 p * d2)
            * (wt1 p * np_rho q1 + wt2 p * np_rho q2) * (y1 - y2) * inv_dy p)
      by ring.
    repeat apply Rmult_le_pos; auto. lra.
Qed.

End PlanarSign.

(** ** The further properties on concrete inputs *)

Lemma fickian_adf_no_gradient_witness :
  fst (fickian_adf humid_state humid_state boundary_params 1 table_world)
  = Ok (finite (repeat 0 2)).
Proof.
  refine (fickian_adf_no_gradient 2 humid_state boundary_params 1 table_world
            _ _ _).
  - intros s g g'. reflexivity.
  - split; reflexivity.
  - simpl. lra.
Defined.

Lemma fickian_adf_repeatable_witness :
  fst (fickian_adf air_state humid_state boundary_params 1
         (snd (fickian_adf humid_state air_state boundary_params 1
                 table_world)))
  = fst (fickian_adf air_state humid_state boundary_params 1 table_world).
Proof.
  apply fickian_adf_repeatable. intros s g g'. reflexivity.
Defined.

Lemma fickian_adf_zero_viscosity_witness :
  fst (fickian_adf air_state humid_state boundary_params 0 inviscid_world)
  = Ok (repeat None 2).
Proof.
  refine (fickian_adf_zero_viscosity 2 air_state humid_state boundary_params
            0 inviscid_world _ _ _).
  - split; reflexivity.
  - split; reflexivity.
  - simpl. lra.
Defined.

Lemma fickian_adf_shape_mismatch_witness :
  fst (fickian_adf air_state humid_state boundary_params 1 ragged_world)
  = Raise ValueError.
Proof.
  refine (fickian_adf_shape_mismatch air_state humid_state boundary_params 1
            ragged_world _).
  unfold shapes_clash. simpl. lia.
Defined.

Lemma fickian_adf_sign_witness :
  exists v : vec,
    fst (fickian_adf humid_state cool_state boundary_params 1 table_world)
    = Ok (finite v) /\
    length v = 2%nat /\
    forall k, (k < 2)%nat -> 0 <= nth k v 0.
Proof.
  refine (fickian_adf_sign 2 humid_state cool_state boundary_params 1
            table_world _ _ _ _ _ _ _ _ _).
  - split; reflexivity.
  - split; reflexivity.
  - split; [simpl; lra|]. split; repeat constructor; simpl; lra.
  - split; [simpl; lra|]. split; repeat constructor; simpl; lra.
  - unfold physical_params. simpl. lra.
  - simpl. lra.
  - lra.
  - simpl. lra.
  - repeat constructor; simpl; lra.
Defined.
